(** * CSStep: the step objects of the iterative constraint solver

    A shallow embedding of [lib/Sema/CSStep.h]: [SolverStep] and its
    utilities, [SplitterStep], [ComponentStep] with its [ComponentScope],
    and [DisjunctionStep] with its overload pruning.

    Pointers to constraints, type variables and declarations are
    identifiers; the constraint system that every step holds by reference
    ([ConstraintSystem &CS]) is a record threaded through each operation.
    A failed [assert] ends the computation in [AssertionFailure] (the
    behaviour of a build with assertions enabled). *)

From stdpp Require Import base option list gmap sets.

#[local] Set Warnings "-clear-no-such-hyp".

(** ** Identifiers and the types the header only names *)

Definition ConstraintPtr := nat.
Definition TypeVariableType := nat.
Definition ValueDecl := nat.

(** [swift::Type] as far as the header inspects it: either a type variable
    ([getAs<TypeVariableType>] succeeds) or something else. *)
Inductive Type_ :=
  | TypeVariable (tv : TypeVariableType)
  | Nominal (n : nat).

Global Instance Type__eq_dec : EqDecision Type_.
Proof. solve_decision. Defined.

Definition getAs_TypeVariableType (t : Type_) : option TypeVariableType :=
  match t with
  | TypeVariable tv => Some tv
  | Nominal _ => None
  end.

(** [BoundType->isEqual(repr)] *)
Definition isEqual (t : Type_) (repr : TypeVariableType) : bool :=
  bool_decide (t = TypeVariable repr).

(** [OverloadChoice]: a declaration, or one of the other kinds (base type,
    tuple index, key-path application, ...). *)
Inductive OverloadChoice :=
  | ChoiceDecl (d : ValueDecl)
  | ChoiceOther.

Definition isDecl (c : OverloadChoice) : bool :=
  match c with ChoiceDecl _ => true | ChoiceOther => false end.

Inductive ConstraintKind :=
  | Equal
  | ConformsTo
  | BindOverload
  | Disjunction.

Global Instance ConstraintKind_eq_dec : EqDecision ConstraintKind.
Proof. solve_decision. Defined.

(** The fields of a [Constraint] that never change while a step lives.
    The one mutable bit, [IsDisabled], is kept in the constraint system
    (field [Disabled] below). *)
Record Constraint := mkConstraint {
  getKind : ConstraintKind;
  getNestedConstraints : list ConstraintPtr;
  getFirstType : Type_;
  getOverloadChoice : OverloadChoice;
  getTypeVariables : list TypeVariableType
}.

(** [Score]: a tuple of counters. *)
Definition Score := list nat.

Definition Solution := nat.
Definition ExprWeights := list nat.

(** One item of the chain [CS.resolvedOverloadSets]; the chain itself is
    the list of its items, newest first ([Previous] is the tail). *)
Record ResolvedOverloadSetListItem := mkResolved {
  BoundType : Type_;
  Choice : OverloadChoice
}.

(** ** [ConstraintList]: an intrusive list of constraints

    A node is in the list at most once. An iterator designates a node of
    the list or its end. *)
Module ConstraintList.

Definition t := list ConstraintPtr.

(** [Some c]: the iterator at node [c]; [None]: [end()]. *)
Definition iterator := option ConstraintPtr.

(** The iterator that follows node [c]. *)
Fixpoint next (c : ConstraintPtr) (l : t) : iterator :=
  match l with
  | [] => None
  | x :: l' => if decide (x = c) then head l' else next c l'
  end.

Fixpoint unlink (c : ConstraintPtr) (l : t) : t :=
  match l with
  | [] => []
  | x :: l' => if decide (x = c) then l' else x :: unlink c l'
  end.

(** [erase(constraint)]: unlinks the node and returns the iterator to
    the node after it. For a node that is not in the list the C++ is
    undefined; here the list is left as it is. *)
Definition erase (c : ConstraintPtr) (l : t) : iterator * t :=
  (next c l, unlink c l).

Fixpoint insert_before (n c : ConstraintPtr) (l : t) : t :=
  match l with
  | [] => []
  | x :: l' => if decide (x = n) then c :: x :: l' else x :: insert_before n c l'
  end.

(** [insert(iterator, constraint)]: links the node in front of the one
    the iterator designates, at the back for [end()]. An iterator whose
    node is not in this list links the constraint elsewhere; this list
    is left as it is. *)
Definition insert (it : iterator) (c : ConstraintPtr) (l : t) : t :=
  match it with
  | None => l ++ [c]
  | Some n => insert_before n c l
  end.

(** [splice(end(), other)]: moves all of [other] to the back. *)
Definition splice_end (l other : t) : t := l ++ other.

End ConstraintList.

(** ** [ConstraintGraph] *)
Module ConstraintGraph.

(** Modelled from the spec: the constraint graph (ConstraintGraph.h is
    not part of the sources at hand). "Constraints are mutually linked
    to the type variables they mention via the constraint graph": each
    type variable's node holds the set of constraints that mention it;
    a constraint that mentions none is kept in the orphan list. *)
Record t := mk {
  Nodes : gmap TypeVariableType (gset ConstraintPtr);
  OrphanedConstraints : list ConstraintPtr
}.

Definition unlinkFrom (c : ConstraintPtr)
    (nodes : gmap TypeVariableType (gset ConstraintPtr)) (tv : TypeVariableType) :=
  alter (λ s, s ∖ {[c]}) tv nodes.

Definition linkTo (c : ConstraintPtr)
    (nodes : gmap TypeVariableType (gset ConstraintPtr)) (tv : TypeVariableType) :=
  <[tv := {[c]} ∪ default ∅ (nodes !! tv)]> nodes.

(** Modelled from the spec: [removeConstraint(c)], "consistent with the
    constraint graph's adjacency bookkeeping". [tvs] are the type
    variables the constraint mentions. *)
Definition removeConstraint (c : ConstraintPtr) (tvs : list TypeVariableType) (g : t) : t :=
  match tvs with
  | [] => mk (Nodes g) (ConstraintList.unlink c (OrphanedConstraints g))
  | _ => mk (foldl (unlinkFrom c) (Nodes g) tvs) (OrphanedConstraints g)
  end.

(** Modelled from the spec: [addConstraint(c)], the inverse bookkeeping. *)
Definition addConstraint (c : ConstraintPtr) (tvs : list TypeVariableType) (g : t) : t :=
  match tvs with
  | [] => mk (Nodes g) (OrphanedConstraints g ++ [c])
  | _ => mk (foldl (linkTo c) (Nodes g) tvs) (OrphanedConstraints g)
  end.

End ConstraintGraph.

(** ** The constraint system the steps share *)

(** Modelled from the spec: [ConstraintSystem::SolverScope], the undo log
    (ConstraintSystem.h is not part of the sources at hand). It "records
    every mutation made to the shared solver state (bound type variables,
    disabled constraints, constraint-list membership)" and the "current-score
    delta" since its creation, and destroying it restores "exactly the state
    visible before the scope was created": the scope is the saved copy of
    those parts. *)
Record SolverScope := mkSolverScope {
  saved_InactiveConstraints : ConstraintList.t;
  saved_CG : ConstraintGraph.t;
  saved_Disabled : gset ConstraintPtr;
  saved_Representative : TypeVariableType → option TypeVariableType;
  saved_CurrentScore : Score
}.

(** [CS.solverState]; steps exist only while it is installed. Its counters
    are of type [unsigned]. *)
Record SolverState := mkSolverState {
  PartialSolutionScope : option SolverScope;
  NumDisjunctions : N;
  ExprWeights_ : ExprWeights
}.

Record ConstraintSystem := mkCS {
  (** [Constraint::IsDisabled] of every constraint *)
  Disabled : gset ConstraintPtr;
  InactiveConstraints : ConstraintList.t;
  TypeVariables : list TypeVariableType;
  (** [typeVar->getImpl().getRepresentative(nullptr)] *)
  getRepresentative : TypeVariableType → option TypeVariableType;
  resolvedOverloadSets : list ResolvedOverloadSetListItem;
  CurrentScore : Score;
  CG : ConstraintGraph.t;
  solverState : SolverState;
  retainAllSolutions : bool
}.

Definition with_Disabled (v : gset ConstraintPtr) (cs : ConstraintSystem) :=
  mkCS v (InactiveConstraints cs) (TypeVariables cs)
       (getRepresentative cs) (resolvedOverloadSets cs) (CurrentScore cs)
       (CG cs) (solverState cs) (retainAllSolutions cs).

Definition with_InactiveConstraints (v : ConstraintList.t) (cs : ConstraintSystem) :=
  mkCS (Disabled cs) v (TypeVariables cs)
       (getRepresentative cs) (resolvedOverloadSets cs) (CurrentScore cs)
       (CG cs) (solverState cs) (retainAllSolutions cs).

Definition with_TypeVariables (v : list TypeVariableType) (cs : ConstraintSystem) :=
  mkCS (Disabled cs) (InactiveConstraints cs) v
       (getRepresentative cs) (resolvedOverloadSets cs) (CurrentScore cs)
       (CG cs) (solverState cs) (retainAllSolutions cs).

Definition with_CG (v : ConstraintGraph.t) (cs : ConstraintSystem) :=
  mkCS (Disabled cs) (InactiveConstraints cs) (TypeVariables cs)
       (getRepresentative cs) (resolvedOverloadSets cs) (CurrentScore cs)
       v (solverState cs) (retainAllSolutions cs).

Definition with_solverState (v : SolverState) (cs : ConstraintSystem) :=
  mkCS (Disabled cs) (InactiveConstraints cs) (TypeVariables cs)
       (getRepresentative cs) (resolvedOverloadSets cs) (CurrentScore cs)
       (CG cs) v (retainAllSolutions cs).

Definition with_PartialSolutionScope (v : option SolverScope) (ss : SolverState) :=
  mkSolverState v (NumDisjunctions ss) (ExprWeights_ ss).

(** [++NumDisjunctions] on an [unsigned]. *)
Definition incr_NumDisjunctions (ss : SolverState) :=
  mkSolverState (PartialSolutionScope ss)
                ((NumDisjunctions ss + 1) mod 2 ^ 32)%N (ExprWeights_ ss).

(** [Constraint::isDisabled], [setDisabled], [setEnabled]. *)
Definition isDisabled (cs : ConstraintSystem) (c : ConstraintPtr) : bool :=
  bool_decide (c ∈ Disabled cs).

Definition setDisabled (c : ConstraintPtr) (cs : ConstraintSystem) :=
  with_Disabled ({[c]} ∪ Disabled cs) cs.

Definition setEnabled (c : ConstraintPtr) (cs : ConstraintSystem) :=
  with_Disabled (Disabled cs ∖ {[c]}) cs.

(** Modelled from the spec: creating a [SolverScope] checkpoints the
    state it will rewind to. *)
Definition SolverScope_ctor (cs : ConstraintSystem) : SolverScope :=
  mkSolverScope (InactiveConstraints cs) (CG cs) (Disabled cs)
                (getRepresentative cs) (CurrentScore cs).

(** Modelled from the spec: [delete SolverScope] "applies the log in
    reverse, restoring exactly the state visible before the scope was
    created". *)
Definition SolverScope_dtor (sc : SolverScope) (cs : ConstraintSystem) : ConstraintSystem :=
  mkCS (saved_Disabled sc) (saved_InactiveConstraints sc)
       (TypeVariables cs) (saved_Representative sc) (resolvedOverloadSets cs)
       (saved_CurrentScore sc) (saved_CG sc) (solverState cs)
       (retainAllSolutions cs).

(** ** Computations over the shared constraint system *)

Inductive Outcome (A : Type) :=
  | Returns (a : A)
  | AssertionFailure.
Arguments Returns {A} a.
Arguments AssertionFailure {A}.

Definition Solver (A : Type) : Type :=
  ConstraintSystem → Outcome (A * ConstraintSystem).

Global Instance Solver_ret : MRet Solver :=
  λ A a cs, Returns (a, cs).

Global Instance Solver_bind : MBind Solver :=
  λ A B f m cs,
    match m cs with
    | Returns (a, cs') => f a cs'
    | AssertionFailure => AssertionFailure
    end.

Definition gets {A} (f : ConstraintSystem → A) : Solver A :=
  λ cs, Returns (f cs, cs).

Definition modify (f : ConstraintSystem → ConstraintSystem) : Solver unit :=
  λ cs, Returns (tt, f cs).

Definition assert (b : bool) : Solver unit :=
  λ cs, if b then Returns (tt, cs) else AssertionFailure.

(** ** The data of the steps *)

Definition SolutionsRef := nat.

Inductive StepState :=
  | Split
  | Merge.

Record SplitterStep := mkSplitterStep {
  Splitter_Solutions : SolutionsRef;
  State : StepState;
  NumComponents : nat;
  PartialSolutions : option (list (list Solution));
  OrphanedConstraints : list ConstraintPtr
}.

Record ComponentScope := mkComponentScope {
  Scope_SolverScope : SolverScope;
  Scope_TypeVars : list TypeVariableType;
  Scope_Constraints : ConstraintList.t;
  PrevPartialScope : option SolverScope
}.

Record ComponentStep := mkComponentStep {
  Component_Solutions : SolutionsRef;
  Index : nat;
  OriginalScore : Score;
  (** [ComponentScope *Scope]: [None] is the null pointer *)
  Scope : option ComponentScope;
  TypeVars : list TypeVariableType;
  Constraints : list ConstraintPtr;
  (** [Constraint *OrphanedConstraint]: [None] is the null pointer *)
  OrphanedConstraint : option ConstraintPtr
}.

(** What the storage handed out by the allocator holds where the two
    pointer members without an initializer will live. *)
Record Storage := mkStorage {
  storage_Scope : option ComponentScope;
  storage_OrphanedConstraint : option ConstraintPtr
}.

(** [record(typeVar)], [record(constraint)] *)
Definition record_TypeVar (typeVar : TypeVariableType) (step : ComponentStep) :=
  mkComponentStep (Component_Solutions step) (Index step) (OriginalScore step)
                  (Scope step) (TypeVars step ++ [typeVar]) (Constraints step)
                  (OrphanedConstraint step).

Definition record_Constraint (constraint : ConstraintPtr) (step : ComponentStep) :=
  mkComponentStep (Component_Solutions step) (Index step) (OriginalScore step)
                  (Scope step) (TypeVars step) (Constraints step ++ [constraint])
                  (OrphanedConstraint step).

Definition with_Scope (v : option ComponentScope) (step : ComponentStep) :=
  mkComponentStep (Component_Solutions step) (Index step) (OriginalScore step)
                  v (TypeVars step) (Constraints step) (OrphanedConstraint step).

(** Modelled from the spec: [DisjunctionChoiceProducer], the "finite lazy
    sequence of candidate choices" of one disjunction: the choices and
    how many of them have been handed out. *)
Record DisjunctionChoiceProducer := mkProducer {
  Producer_Choices : list ConstraintPtr;
  Producer_Index : nat
}.

Record DisjunctionStep := mkDisjunctionStep {
  Disjunction_Solutions : SolutionsRef;
  Disjunction_ : ConstraintPtr;
  DisabledChoices : list ConstraintPtr;
  AfterDisjunction : ConstraintList.iterator;
  Producer : DisjunctionChoiceProducer;
  BestNonGenericScore : option Score;
  LastSolvedChoice : option (ConstraintPtr * Score);
  ActiveScope : option SolverScope
}.

(** ** A small constraint system to run the steps on

    Type variable [1] carries the overload disjunction [10] with the
    choices [11], [12], [13] (declarations [100], [101], [102]); it has
    been merged into type variable [3]. Constraint [20] mentions type
    variable [2]; constraint [30] mentions none; [40] is a disjunction
    without choices. *)
Module Example.

Definition bindOverload (d : ValueDecl) : Constraint :=
  mkConstraint BindOverload [] (TypeVariable 1) (ChoiceDecl d) [1].

Definition heap (c : ConstraintPtr) : Constraint :=
  match c with
  | 10 => mkConstraint Disjunction [11; 12; 13] (Nominal 0) ChoiceOther [1]
  | 11 => bindOverload 100
  | 12 => bindOverload 101
  | 13 => bindOverload 102
  | 20 => mkConstraint Equal [] (TypeVariable 2) ChoiceOther [2]
  | 40 => mkConstraint Disjunction [] (Nominal 0) ChoiceOther [2]
  | _ => mkConstraint Equal [] (Nominal 0) ChoiceOther []
  end.

Definition representative (tv : TypeVariableType) : option TypeVariableType :=
  match tv with
  | 1 => Some 3
  | _ => Some tv
  end.

Definition graph : ConstraintGraph.t :=
  ConstraintGraph.mk {[ 1 := {[ 10 ]}; 2 := {[ 20 ]} ]} [30].

Definition state : SolverState := mkSolverState None 0 [].

(** [disabled]: the choices already disabled; [resolved]: the chain of
    resolved overloads; [retain]: the retain-all-solutions mode. *)
Definition system (disabled : gset ConstraintPtr)
    (resolved : list ResolvedOverloadSetListItem) (retain : bool) : ConstraintSystem :=
  mkCS disabled [20; 10; 30] [1; 2; 3] representative resolved [0; 0] graph state retain.

(** The same system with the disjunction without choices, [40], linked
    into the constraint list and known to the graph. *)
Definition graph40 : ConstraintGraph.t :=
  ConstraintGraph.mk {[ 1 := {[ 10 ]}; 2 := {[ 20; 40 ]} ]} [30].

Definition system40 : ConstraintSystem :=
  mkCS ∅ [20; 40; 10; 30] [1; 2; 3] representative [] [0; 0] graph40 state false.

(** The overload of type variable [3] resolved to declaration [100]. *)
Definition resolved100 : list ResolvedOverloadSetListItem :=
  [mkResolved (TypeVariable 3) (ChoiceDecl 100)].

(** A chain in which a newer item binds type variable [3] to a choice
    that is not a declaration. *)
Definition resolvedTwice : list ResolvedOverloadSetListItem :=
  [mkResolved (TypeVariable 3) ChoiceOther; mkResolved (TypeVariable 3) (ChoiceDecl 100)].

End Example.

(** ** [SolverStep]: the utilities every step inherits *)

Section Steps.

(** The constraint objects, by address: the fields of a constraint that
    no step can change. *)
Variable deref : ConstraintPtr → Constraint.

(** [erase(constraint)] *)
Definition erase (constraint : ConstraintPtr) : Solver ConstraintList.iterator :=
  modify (λ cs, with_CG (ConstraintGraph.removeConstraint constraint
                           (getTypeVariables (deref constraint)) (CG cs)) cs);;
  l ← gets InactiveConstraints;
  let '(it, l') := ConstraintList.erase constraint l in
  modify (with_InactiveConstraints l');;
  mret it.

(** [restore(iterator, constraint)] *)
Definition restore (it : ConstraintList.iterator) (constraint : ConstraintPtr) : Solver unit :=
  modify (λ cs, with_InactiveConstraints
                  (ConstraintList.insert it constraint (InactiveConstraints cs)) cs);;
  modify (λ cs, with_CG (ConstraintGraph.addConstraint constraint
                           (getTypeVariables (deref constraint)) (CG cs)) cs).

(** The graph knows constraint [c]: every type variable [c] mentions
    lists it, or the orphan list does when it mentions none. This is what
    keeps the graph consistent with the constraint list. *)
Definition tracked (g : ConstraintGraph.t) (c : ConstraintPtr) : bool :=
  match getTypeVariables (deref c) with
  | [] => bool_decide (c ∈ ConstraintGraph.OrphanedConstraints g)
  | tvs => forallb (λ tv, bool_decide (c ∈ default ∅ (ConstraintGraph.Nodes g !! tv))) tvs
  end.

(** [ArrayRef::front()]: asserts that the array is not empty. *)
Definition front {A} (a : list A) : Solver A :=
  match a with
  | [] => λ _, AssertionFailure
  | x :: _ => mret x
  end.

(** [getResolvedOverloads()], [getCurrentScore()] *)
Definition getResolvedOverloads : Solver (list ResolvedOverloadSetListItem) :=
  gets resolvedOverloadSets.

Definition getCurrentScore : Solver Score := gets CurrentScore.

(** [ConstraintSystem::filterSolutions(solutions, weights, minimize)],
    the collaborator that narrows the candidates in place; the result is
    the content of [solutions] afterwards. *)
Variable CS_filterSolutions :
  list Solution → ExprWeights → bool → Solver (list Solution).

(** [filterSolutions(solutions, minimize)]; the result is the content
    of [solutions] afterwards. *)
Definition filterSolutions (solutions : list Solution) (minimize : bool)
    : Solver (list Solution) :=
  retain ← gets retainAllSolutions;
  if negb retain then
    weights ← gets (λ cs, ExprWeights_ (solverState cs));
    CS_filterSolutions solutions weights minimize
  else mret solutions.

(** ** [SplitterStep] *)

(** [SplitterStep::create(cs, solutions)] *)
Definition SplitterStep_create (solutions : SolutionsRef) : SplitterStep :=
  mkSplitterStep solutions Split 0 None [].

(** [ConstraintGraph::setOrphanedConstraints(list&&)], the collaborator
    the destructor hands its orphans to. *)
Variable setOrphanedConstraints :
  list ConstraintPtr → ConstraintGraph.t → ConstraintGraph.t.

(** [~SplitterStep()] *)
Definition SplitterStep_dtor (step : SplitterStep) : Solver unit :=
  modify (λ cs, with_CG (setOrphanedConstraints (OrphanedConstraints step) (CG cs)) cs).

(** ** [ComponentStep] and its [ComponentScope] *)

(** [ComponentStep(cs, index, solutions)], constructed in [mem]: the
    member initializers set the base class, [Index] and [OriginalScore];
    the two vectors are default-constructed; [Scope] and
    [OrphanedConstraint] keep what the storage held. *)
Definition ComponentStep_ctor (mem : Storage) (index : nat) (solutions : SolutionsRef)
    : Solver ComponentStep :=
  score ← getCurrentScore;
  mret (mkComponentStep solutions index score (storage_Scope mem) [] []
                        (storage_OrphanedConstraint mem)).

(** [recordOrphan(constraint)] *)
Definition recordOrphan (constraint : option ConstraintPtr) (step : ComponentStep)
    : Solver ComponentStep :=
  assert (bool_decide (OrphanedConstraint step = None));;
  mret (mkComponentStep (Component_Solutions step) (Index step) (OriginalScore step)
                        (Scope step) (TypeVars step) (Constraints step) constraint).

(** [~ComponentScope()] *)
Definition ComponentScope_dtor (scope : ComponentScope) : Solver unit :=
  modify (SolverScope_dtor (Scope_SolverScope scope));;
  modify (λ cs, with_solverState
                  (with_PartialSolutionScope (PrevPartialScope scope) (solverState cs)) cs);;
  modify (with_TypeVariables (Scope_TypeVars scope));;
  modify (λ cs, with_InactiveConstraints
                  (ConstraintList.splice_end (InactiveConstraints cs)
                                             (Scope_Constraints scope)) cs).

(** [~ComponentStep()]; the result is the step with [Scope] reset. *)
Definition ComponentStep_dtor (step : ComponentStep) : Solver ComponentStep :=
  match Scope step with
  | None => mret step
  | Some scope =>
      ComponentScope_dtor scope;;
      mret (with_Scope None step)
  end.

(** ** [DisjunctionStep] *)

(** The inner loop of [pruneOverloadSet]: disable every nested choice that
    is a declaration other than [representative.getDecl()], and push it
    onto [DisabledChoices]. *)
Fixpoint disableOtherDecls (representative : ValueDecl) (nested : list ConstraintPtr)
    (disabledChoices : list ConstraintPtr) : Solver (list ConstraintPtr) :=
  match nested with
  | [] => mret disabledChoices
  | constraint :: rest =>
      match getOverloadChoice (deref constraint) with
      | ChoiceOther => disableOtherDecls representative rest disabledChoices
      | ChoiceDecl d =>
          if decide (d = representative)
          then disableOtherDecls representative rest disabledChoices
          else
            modify (setDisabled constraint);;
            disableOtherDecls representative rest (disabledChoices ++ [constraint])
      end
  end.

(** The loop over the resolved overloads, from the newest one along
    [Previous]. *)
Fixpoint pruneAgainstResolved (repr : TypeVariableType)
    (resolved : list ResolvedOverloadSetListItem) (disjunction : ConstraintPtr)
    (disabledChoices : list ConstraintPtr) : Solver (list ConstraintPtr) :=
  match resolved with
  | [] => mret disabledChoices
  | item :: previous =>
      if negb (isEqual (BoundType item) repr)
      then pruneAgainstResolved repr previous disjunction disabledChoices
      else
        match Choice item with
        | ChoiceOther => mret disabledChoices
        | ChoiceDecl representative =>
            disableOtherDecls representative
              (getNestedConstraints (deref disjunction)) disabledChoices
        end
  end.

(** [pruneOverloadSet(disjunction)]; [disabledChoices] is the member
    [DisabledChoices] before the call, the result is the member after it.
    [front()] of an empty array fails its assertion. *)
Definition pruneOverloadSet (disjunction : ConstraintPtr)
    (disabledChoices : list ConstraintPtr) : Solver (list ConstraintPtr) :=
  choice ← front (getNestedConstraints (deref disjunction));
  match getAs_TypeVariableType (getFirstType (deref choice)) with
  | None => mret disabledChoices
  | Some typeVar =>
      repr ← gets (λ cs, getRepresentative cs typeVar);
      match repr with
      | None => mret disabledChoices
      | Some repr =>
          if decide (repr = typeVar) then mret disabledChoices
          else
            resolved ← getResolvedOverloads;
            pruneAgainstResolved repr resolved disjunction disabledChoices
      end
  end.

(** [DisjunctionStep(cs, disjunction, solutions)]: the member initializers
    in declaration order, then the body. *)
Definition DisjunctionStep_ctor (disjunction : ConstraintPtr) (solutions : SolutionsRef)
    : Solver DisjunctionStep :=
  afterDisjunction ← erase disjunction;
  let producer := mkProducer (getNestedConstraints (deref disjunction)) 0 in
  assert (bool_decide (getKind (deref disjunction) = Disjunction));;
  disabledChoices ← pruneOverloadSet disjunction [];
  modify (λ cs, with_solverState (incr_NumDisjunctions (solverState cs)) cs);;
  mret (mkDisjunctionStep solutions disjunction disabledChoices afterDisjunction
                          producer None None None).

(** The loop of the destructor: [choice->setEnabled()] for each disabled
    choice. *)
Fixpoint enableAll (choices : list ConstraintPtr) : Solver unit :=
  match choices with
  | [] => mret tt
  | choice :: rest => modify (setEnabled choice);; enableAll rest
  end.

(** [~DisjunctionStep()] *)
Definition DisjunctionStep_dtor (step : DisjunctionStep) : Solver unit :=
  restore (AfterDisjunction step) (Disjunction_ step);;
  enableAll (DisabledChoices step).

(** ** What the pruning is expected to do *)

(** The overload choice is a declaration other than [representative]. *)
Definition isOtherDecl (representative : ValueDecl) (choice : OverloadChoice) : bool :=
  match choice with
  | ChoiceDecl d => bool_decide (d ≠ representative)
  | ChoiceOther => false
  end.

(** The nested choices of [disjunction] that are declarations other than
    [representative]. *)
Definition otherDecls (representative : ValueDecl) (disjunction : ConstraintPtr)
    : list ConstraintPtr :=
  filter (λ c, isOtherDecl representative (getOverloadChoice (deref c)))
         (getNestedConstraints (deref disjunction)).

(** Some resolved overload is bound to the representative of the first
    choice's type variable with the declaration [d]: the first nested
    choice's first type is a type variable, its representative is another
    variable, and an item of the chain of resolved overloads has that
    representative as its bound type and [d] as its choice. *)
Definition someResolvedDecl (cs : ConstraintSystem) (disjunction : ConstraintPtr)
    (d : ValueDecl) : Prop :=
  ∃ choice rest typeVar repr item,
    getNestedConstraints (deref disjunction) = choice :: rest ∧
    getFirstType (deref choice) = TypeVariable typeVar ∧
    getRepresentative cs typeVar = Some repr ∧
    repr ≠ typeVar ∧
    item ∈ resolvedOverloadSets cs ∧
    BoundType item = TypeVariable repr ∧
    Choice item = ChoiceDecl d.

(** The same, for the newest resolved overload bound to that
    representative: no item in front of it in the chain has the
    representative as its bound type. *)
Definition newestResolvedDecl (cs : ConstraintSystem) (disjunction : ConstraintPtr)
    (d : ValueDecl) : Prop :=
  ∃ choice rest typeVar repr newer item older,
    getNestedConstraints (deref disjunction) = choice :: rest ∧
    getFirstType (deref choice) = TypeVariable typeVar ∧
    getRepresentative cs typeVar = Some repr ∧
    repr ≠ typeVar ∧
    resolvedOverloadSets cs = newer ++ item :: older ∧
    Forall (λ x, BoundType x ≠ TypeVariable repr) newer ∧
    BoundType item = TypeVariable repr ∧
    Choice item = ChoiceDecl d.

(** The declaration of [newestResolvedDecl], computed. *)
Definition representativeDecl (cs : ConstraintSystem) (disjunction : ConstraintPtr)
    : option ValueDecl :=
  match getNestedConstraints (deref disjunction) with
  | [] => None
  | choice :: _ =>
      match getFirstType (deref choice) with
      | Nominal _ => None
      | TypeVariable typeVar =>
          match getRepresentative cs typeVar with
          | None => None
          | Some repr =>
              if decide (repr = typeVar) then None
              else
                match find (λ item, isEqual (BoundType item) repr)
                           (resolvedOverloadSets cs) with
                | Some {| Choice := ChoiceDecl d |} => Some d
                | _ => None
                end
          end
      end
  end.

(** The choices the pruning disables. *)
Definition prunedChoices (cs : ConstraintSystem) (disjunction : ConstraintPtr)
    : list ConstraintPtr :=
  match representativeDecl cs disjunction with
  | Some d => otherDecls d disjunction
  | None => []
  end.

End Steps.

(** * Properties *)

(** Runs a computation symbolically: unfolds the monad and the field
    updates. *)
Ltac run :=
  unfold mbind, Solver_bind, mret, Solver_ret, gets, modify, assert,
    with_CG, with_InactiveConstraints, with_Disabled, with_TypeVariables,
    with_solverState in *;
  cbn in *.

(** ** The constraint list *)

Lemma next_elem_of (c n : ConstraintPtr) (l : ConstraintList.t) :
  ConstraintList.next c l = Some n → n ∈ l.
Proof.
  induction l as [|x l IH]; simpl; [done|].
  case_decide.
  - destruct l; simpl; [done|]. intros [= ->]. set_solver.
  - intros H'. apply IH in H'. set_solver.
Qed.

Lemma unlink_elem_of (c x : ConstraintPtr) (l : ConstraintList.t) :
  x ∈ ConstraintList.unlink c l → x ∈ l.
Proof.
  induction l as [|y l IH]; simpl; [done|].
  case_decide; [|intros [->|?]%elem_of_cons]; set_solver.
Qed.

Lemma unlink_NoDup (c : ConstraintPtr) (l : ConstraintList.t) :
  NoDup l → NoDup (ConstraintList.unlink c l) ∧ c ∉ ConstraintList.unlink c l.
Proof.
  induction 1 as [|x l Hx Hl IH]; simpl.
  - split; [constructor | set_solver].
  - case_decide; subst.
    + done.
    + destruct IH as [IH1 IH2]. split.
      * constructor; [|done]. intros Hin. by apply unlink_elem_of in Hin.
      * intros [?|?]%elem_of_cons; [congruence|done].
Qed.

Lemma unlink_app_Permutation (c : ConstraintPtr) (l : ConstraintList.t) :
  c ∈ l → ConstraintList.unlink c l ++ [c] ≡ₚ l.
Proof.
  induction l as [|x l IH]; simpl.
  - by intros ?%elem_of_nil.
  - case_decide; subst.
    + intros _. by rewrite Permutation_app_comm.
    + intros [?|Hin]%elem_of_cons; [congruence|]. simpl. by rewrite IH.
Qed.

(** Linking a node back in front of its old successor undoes [erase]. *)
Lemma insert_erase (c : ConstraintPtr) (l : ConstraintList.t) :
  NoDup l → c ∈ l →
  ConstraintList.insert (ConstraintList.next c l) c (ConstraintList.unlink c l) = l.
Proof.
  induction 1 as [|x l Hx Hl IH]; simpl.
  - by intros ?%elem_of_nil.
  - case_decide as Hxc.
    + subst. intros _. destruct l as [|y l]; simpl; [done|].
      by case_decide.
    + intros [?|Hin]%elem_of_cons; [congruence|].
      specialize (IH Hin).
      destruct (ConstraintList.next c l) as [n|] eqn:Hn; simpl in *.
      * case_decide as Hxn; [|by rewrite IH].
        subst. by apply next_elem_of in Hn.
      * by rewrite IH.
Qed.

(** ** The constraint graph *)

Lemma lookup_foldl_unlinkFrom (c : ConstraintPtr) (tvs : list TypeVariableType)
    (nodes : gmap TypeVariableType (gset ConstraintPtr)) (tv : TypeVariableType) :
  foldl (ConstraintGraph.unlinkFrom c) nodes tvs !! tv =
  if decide (tv ∈ tvs) then (λ s, s ∖ {[c]}) <$> nodes !! tv else nodes !! tv.
Proof.
  revert nodes. induction tvs as [|x tvs IH]; intros nodes.
  - case_decide as Hin; [by apply elem_of_nil in Hin | done].
  - cbn [foldl]. rewrite IH. unfold ConstraintGraph.unlinkFrom. rewrite lookup_alter.
    destruct (decide (x = tv)) as [->|Hne].
    + rewrite (decide_True (P := tv ∈ tv :: tvs)) by set_solver.
      case_decide; [|done].
      destruct (nodes !! tv) as [s|]; simpl; [|done].
      f_equal. set_solver.
    + repeat case_decide; try done; set_solver.
Qed.

Lemma lookup_foldl_linkTo (c : ConstraintPtr) (tvs : list TypeVariableType)
    (nodes : gmap TypeVariableType (gset ConstraintPtr)) (tv : TypeVariableType) :
  foldl (ConstraintGraph.linkTo c) nodes tvs !! tv =
  if decide (tv ∈ tvs) then Some ({[c]} ∪ default ∅ (nodes !! tv)) else nodes !! tv.
Proof.
  revert nodes. induction tvs as [|x tvs IH]; intros nodes.
  - case_decide as Hin; [by apply elem_of_nil in Hin | done].
  - cbn [foldl]. rewrite IH. unfold ConstraintGraph.linkTo. rewrite lookup_insert.
    destruct (decide (x = tv)) as [->|Hne].
    + rewrite (decide_True (P := tv ∈ tv :: tvs)) by set_solver.
      case_decide; [|done]. simpl. f_equal. set_solver.
    + repeat case_decide; try done; set_solver.
Qed.

(** Removing a constraint the graph knows and adding it again leaves the
    adjacency as it was. *)
Lemma add_remove_Nodes (c : ConstraintPtr) (tvs : list TypeVariableType)
    (nodes : gmap TypeVariableType (gset ConstraintPtr)) :
  forallb (λ tv, bool_decide (c ∈ default ∅ (nodes !! tv))) tvs = true →
  foldl (ConstraintGraph.linkTo c) (foldl (ConstraintGraph.unlinkFrom c) nodes tvs) tvs = nodes.
Proof.
  intros Hall. apply map_eq. intros tv.
  rewrite lookup_foldl_linkTo, lookup_foldl_unlinkFrom.
  case_decide as Htv; [|done].
  rewrite forallb_forall in Hall.
  apply list_elem_of_In, Hall, bool_decide_eq_true in Htv.
  destruct (nodes !! tv) as [s|]; simpl in *; [|set_solver].
  f_equal. apply set_eq. intros x. destruct (decide (x = c)); set_solver.
Qed.

Lemma addConstraint_removeConstraint (deref : ConstraintPtr → Constraint)
    (c : ConstraintPtr) (g : ConstraintGraph.t) :
  tracked deref g c = true →
  let g' := ConstraintGraph.addConstraint c (getTypeVariables (deref c))
              (ConstraintGraph.removeConstraint c (getTypeVariables (deref c)) g) in
  ConstraintGraph.Nodes g' = ConstraintGraph.Nodes g ∧
  ConstraintGraph.OrphanedConstraints g' ≡ₚ ConstraintGraph.OrphanedConstraints g ∧
  (getTypeVariables (deref c) ≠ [] → g' = g).
Proof.
  unfold tracked. destruct g as [nodes orphans].
  destruct (getTypeVariables (deref c)) as [|tv rest] eqn:Htvs; intros Htr.
  - apply bool_decide_eq_true in Htr. cbn in *.
    split_and!; [done | by apply unlink_app_Permutation | done].
  - cbv zeta.
    unfold ConstraintGraph.addConstraint, ConstraintGraph.removeConstraint.
    cbn [ConstraintGraph.Nodes ConstraintGraph.OrphanedConstraints].
    rewrite (add_remove_Nodes c (tv :: rest) nodes Htr). done.
Qed.

(** ** [erase] and [restore] *)

(** C7. For a constraint [c] of the inactive list that the graph knows,
    [restore] called with [c] and the iterator [erase c] returned is a
    round trip: the list has [c] at its old place and all constraints in
    their old order, and the adjacency of the graph (the constraints of
    every type variable's node) is what it was. The only part of the
    constraint system that can differ is the order of the graph's orphan
    list, and only when [c] mentions no type variable. *)
Theorem erase_restore_round_trip (deref : ConstraintPtr → Constraint)
    (cs : ConstraintSystem) (c : ConstraintPtr) :
  NoDup (InactiveConstraints cs) →
  c ∈ InactiveConstraints cs →
  tracked deref (CG cs) c = true →
  ∃ cs',
    (it ← erase deref c; restore deref it c) cs = Returns (tt, cs') ∧
    InactiveConstraints cs' = InactiveConstraints cs ∧
    ConstraintGraph.Nodes (CG cs') = ConstraintGraph.Nodes (CG cs) ∧
    ConstraintGraph.OrphanedConstraints (CG cs') ≡ₚ
      ConstraintGraph.OrphanedConstraints (CG cs) ∧
    cs' = with_CG (ConstraintGraph.mk (ConstraintGraph.Nodes (CG cs))
                     (ConstraintGraph.OrphanedConstraints (CG cs'))) cs ∧
    (getTypeVariables (deref c) ≠ [] → cs' = cs).
Proof.
  intros Hnd Hin Htr. eexists. split; [reflexivity|].
  destruct cs as [dis l tvs repr res score [nodes orphans] ss retain].
  destruct (addConstraint_removeConstraint deref c _ Htr) as (Hnodes & Horph & Hsame).
  unfold erase, restore. run.
  rewrite (insert_erase c l Hnd Hin).
  destruct (ConstraintGraph.addConstraint _ _ _) as [nodes' orphans'].
  cbn in *. subst nodes'.
  split_and!; try done.
  intros Hne. by rewrite (Hsame Hne).
Qed.

(** ** [filterSolutions] *)

(** C8. [filterSolutions] leaves the candidates, and the constraint
    system, as they are when the constraint system retains all solutions;
    otherwise it is the constraint system's own filter applied to the
    candidates, the expression weights of the solver state and the
    [minimize] flag. *)
Theorem filterSolutions_retain_or_delegate
    (CS_filterSolutions : list Solution → ExprWeights → bool → Solver (list Solution))
    (cs : ConstraintSystem) (solutions : list Solution) (minimize : bool) :
  filterSolutions CS_filterSolutions solutions minimize cs =
  if retainAllSolutions cs then Returns (solutions, cs)
  else CS_filterSolutions solutions (ExprWeights_ (solverState cs)) minimize cs.
Proof.
  unfold filterSolutions. run. by destruct (retainAllSolutions cs).
Qed.

(** ** [ComponentStep::recordOrphan] and the constructor *)

(** C6. On a step whose [OrphanedConstraint] is null, [recordOrphan]
    passes its assertion and records the constraint; any further
    [recordOrphan] on the step that now holds an orphan fails the
    assertion. *)
Theorem recordOrphan_second_aborts (step : ComponentStep) (cs : ConstraintSystem)
    (c : ConstraintPtr) :
  OrphanedConstraint step = None →
  ∃ step',
    recordOrphan (Some c) step cs = Returns (step', cs) ∧
    OrphanedConstraint step' = Some c ∧
    ∀ second cs', recordOrphan second step' cs' = AssertionFailure.
Proof.
  intros Hnull. eexists. unfold recordOrphan. run. rewrite Hnull. cbn.
  by split_and!.
Qed.

(** C9. The constructor of [ComponentStep] sets [Index] and
    [OriginalScore] and leaves [Scope] and [OrphanedConstraint] holding
    what the storage held. Hence for one and the same constraint system,
    index and solution buffer there are two freshly constructed steps on
    which the destructor leaves different constraint systems behind, and
    on which [recordOrphan] fails its assertion for one and passes it for
    the other. *)
Theorem ComponentStep_ctor_leaves_pointers (cs : ConstraintSystem) (index : nat)
    (solutions : SolutionsRef) (c : option ConstraintPtr) :
  (∀ mem, ∃ step,
      ComponentStep_ctor mem index solutions cs = Returns (step, cs) ∧
      Index step = index ∧
      OriginalScore step = CurrentScore cs ∧
      Scope step = storage_Scope mem ∧
      OrphanedConstraint step = storage_OrphanedConstraint mem) ∧
  (∃ mem1 mem2 step1 step2 step1' step2' cs1 cs2,
      ComponentStep_ctor mem1 index solutions cs = Returns (step1, cs) ∧
      ComponentStep_ctor mem2 index solutions cs = Returns (step2, cs) ∧
      ComponentStep_dtor step1 cs = Returns (step1', cs1) ∧
      ComponentStep_dtor step2 cs = Returns (step2', cs2) ∧
      cs1 = cs ∧
      TypeVariables cs2 ≠ TypeVariables cs ∧
      recordOrphan c step1 cs = Returns
        (mkComponentStep solutions index (CurrentScore cs) None [] [] c, cs) ∧
      recordOrphan c step2 cs = AssertionFailure).
Proof.
  split.
  - intros mem. eexists. split; [reflexivity|]. done.
  - exists (mkStorage None None).
    exists (mkStorage
              (Some (mkComponentScope (SolverScope_ctor cs) (0 :: TypeVariables cs) [] None))
              (Some 0)).
    do 6 eexists. split_and!; try reflexivity.
    cbn. intros Heq. apply (f_equal length) in Heq. simpl in Heq. lia.
Qed.

(** ** [DisjunctionStep::pruneOverloadSet] *)

Lemma with_Disabled_id (cs : ConstraintSystem) : with_Disabled (Disabled cs) cs = cs.
Proof. by destruct cs. Qed.

Lemma with_Disabled_twice (d1 d2 : gset ConstraintPtr) (cs : ConstraintSystem) :
  with_Disabled d1 (with_Disabled d2 cs) = with_Disabled d1 cs.
Proof. done. Qed.

(** The inner loop disables the other declarations, in order. *)
Lemma disableOtherDecls_run (deref : ConstraintPtr → Constraint) (dr : ValueDecl)
    (nested acc : list ConstraintPtr) (cs : ConstraintSystem) :
  let others := filter (λ c, isOtherDecl dr (getOverloadChoice (deref c))) nested in
  disableOtherDecls deref dr nested acc cs =
  Returns (acc ++ others, with_Disabled (list_to_set others ∪ Disabled cs) cs).
Proof.
  cbv zeta. revert acc cs. induction nested as [|c nested IH]; intros acc cs.
  - cbn. rewrite app_nil_r, (left_id_L ∅ (∪)). by rewrite with_Disabled_id.
  - cbn [disableOtherDecls].
    destruct (getOverloadChoice (deref c)) as [d|] eqn:Hc.
    + destruct (decide (d = dr)) as [->|Hne].
      * rewrite filter_cons_False; [apply IH|].
        rewrite Hc. cbn. by intros ?%bool_decide_unpack.
      * rewrite filter_cons_True
          by (rewrite Hc; cbn; by apply bool_decide_pack).
        unfold mbind, Solver_bind, modify. rewrite IH.
        unfold setDisabled. rewrite with_Disabled_twice.
        rewrite <- (assoc_L (++)). cbn. do 2 f_equal.
        unfold with_Disabled. cbn. f_equal. set_solver.
    + rewrite filter_cons_False by (rewrite Hc; cbn; tauto). apply IH.
Qed.

(** The walk along the chain stops at the newest item bound to [repr]. *)
Lemma pruneAgainstResolved_run (deref : ConstraintPtr → Constraint)
    (repr : TypeVariableType) (resolved : list ResolvedOverloadSetListItem)
    (d : ConstraintPtr) (acc : list ConstraintPtr) (cs : ConstraintSystem) :
  pruneAgainstResolved deref repr resolved d acc cs =
  match find (λ item, isEqual (BoundType item) repr) resolved with
  | Some item =>
      match Choice item with
      | ChoiceDecl dr =>
          Returns (acc ++ otherDecls deref dr d,
                   with_Disabled (list_to_set (otherDecls deref dr d) ∪ Disabled cs) cs)
      | ChoiceOther => Returns (acc, cs)
      end
  | None => Returns (acc, cs)
  end.
Proof.
  induction resolved as [|item previous IH]; [done|].
  cbn [pruneAgainstResolved find].
  destruct (isEqual (BoundType item) repr); cbn [negb]; [|apply IH].
  destruct (Choice item); [|done].
  apply disableOtherDecls_run.
Qed.

(** [pruneOverloadSet] computes [prunedChoices]. *)
Lemma pruneOverloadSet_run (deref : ConstraintPtr → Constraint) (d : ConstraintPtr)
    (acc : list ConstraintPtr) (cs : ConstraintSystem) :
  getNestedConstraints (deref d) ≠ [] →
  pruneOverloadSet deref d acc cs =
  Returns (acc ++ prunedChoices deref cs d,
           with_Disabled (list_to_set (prunedChoices deref cs d) ∪ Disabled cs) cs).
Proof.
  intros Hne.
  assert (∀ a : list ConstraintPtr, Returns (a, cs) =
            @Returns (list ConstraintPtr * ConstraintSystem)
              (a ++ [], with_Disabled (list_to_set [] ∪ Disabled cs) cs)) as Hnone.
  { intros a. rewrite app_nil_r. cbn. rewrite (left_id_L ∅ (∪)).
    by rewrite with_Disabled_id. }
  unfold pruneOverloadSet, prunedChoices, representativeDecl.
  destruct (getNestedConstraints (deref d)) as [|choice rest]; [done|].
  cbn [front]. unfold mbind at 1, Solver_bind at 1, mret, Solver_ret.
  destruct (getFirstType (deref choice)) as [typeVar|];
    cbn [getAs_TypeVariableType]; [|apply Hnone].
  unfold mbind, Solver_bind, gets.
  destruct (getRepresentative cs typeVar) as [repr|]; [|apply Hnone].
  destruct (decide (repr = typeVar)); [apply Hnone|].
  unfold getResolvedOverloads, gets. rewrite pruneAgainstResolved_run.
  destruct (find _ _) as [[bound [dr|]]|]; cbn [Choice]; [done | apply Hnone..].
Qed.

Lemma isEqual_true (t : Type_) (repr : TypeVariableType) :
  isEqual t repr = true ↔ t = TypeVariable repr.
Proof. unfold isEqual. apply bool_decide_eq_true. Qed.

(** [find] returns the first item that satisfies the test. *)
Lemma find_Some_first {A} (f : A → bool) (l : list A) (x : A) :
  find f l = Some x ↔
  ∃ newer older, l = newer ++ x :: older ∧ Forall (λ y, f y = false) newer ∧ f x = true.
Proof.
  induction l as [|y l IH]; cbn [find].
  - split; [done|]. intros (newer & older & Hl & _). by destruct newer.
  - destruct (f y) eqn:Hy.
    + split.
      * intros [= ->]. by exists [], l.
      * intros ([|z newer] & older & Hl & Hnewer & Hx); simplify_eq/=; [done|].
        apply Forall_cons in Hnewer as [Hz _]. congruence.
    + rewrite IH. split.
      * intros (newer & older & -> & Hnewer & Hx).
        exists (y :: newer), older. split_and!; [done | by constructor | done].
      * intros ([|z newer] & older & Hl & Hnewer & Hx); simplify_eq/=; [congruence|].
        apply Forall_cons in Hnewer as [_ Hnewer]. by exists newer, older.
Qed.

(** [representativeDecl] computes the declaration of [newestResolvedDecl]. *)
Lemma representativeDecl_newest (deref : ConstraintPtr → Constraint)
    (cs : ConstraintSystem) (d : ConstraintPtr) (dr : ValueDecl) :
  representativeDecl deref cs d = Some dr ↔ newestResolvedDecl deref cs d dr.
Proof.
  unfold representativeDecl, newestResolvedDecl. split.
  - destruct (getNestedConstraints (deref d)) as [|choice rest]; [done|].
    destruct (getFirstType (deref choice)) as [typeVar|] eqn:Hty; [|done].
    destruct (getRepresentative cs typeVar) as [repr|] eqn:Hrepr; [|done].
    destruct (decide (repr = typeVar)) as [|Hne]; [done|].
    destruct (find _ _) as [[bound [dr'|]]|] eqn:Hfind; [|done..].
    intros [= ->].
    apply find_Some_first in Hfind as (newer & older & Hl & Hnewer & Hitem).
    exists choice, rest, typeVar, repr, newer, (mkResolved bound (ChoiceDecl dr)), older.
    split_and!; try done.
    + eapply Forall_impl; [exact Hnewer|]. cbn. intros x Hx Heq.
      apply isEqual_true in Heq. congruence.
    + by apply isEqual_true in Hitem.
  - intros (choice & rest & typeVar & repr & newer & item & older
            & -> & -> & -> & Hne & Hl & Hnewer & Hbound & Hchoice).
    rewrite decide_False by done.
    assert (find (λ item, isEqual (BoundType item) repr) (resolvedOverloadSets cs)
            = Some item) as ->.
    { apply find_Some_first. exists newer, older. split_and!; [done| |].
      - eapply Forall_impl; [exact Hnewer|]. cbn. intros x Hx.
        destruct (isEqual (BoundType x) repr) eqn:Heq; [|done].
        by apply isEqual_true in Heq.
      - by apply isEqual_true. }
    destruct item as [bound choice']. cbn in *. by subst.
Qed.

(** C3, with the resolved overload made precise. Take a disjunction with
    at least one nested choice. If the first nested choice's first type
    is a type variable whose representative is another variable, and the
    newest resolved overload bound to that representative is a
    declaration, then [pruneOverloadSet] disables exactly the nested
    choices whose overload choice is a declaration other than that one,
    and [DisabledChoices] lists them in order. In every other case it
    disables no choice and leaves the constraint system as it is. *)
Theorem pruneOverloadSet_disables (deref : ConstraintPtr → Constraint)
    (cs : ConstraintSystem) (d : ConstraintPtr) :
  getNestedConstraints (deref d) ≠ [] →
  (∀ dr, newestResolvedDecl deref cs d dr →
     pruneOverloadSet deref d [] cs =
     Returns (otherDecls deref dr d,
              with_Disabled (list_to_set (otherDecls deref dr d) ∪ Disabled cs) cs)) ∧
  ((∀ dr, ¬ newestResolvedDecl deref cs d dr) →
     pruneOverloadSet deref d [] cs = Returns ([], cs)).
Proof.
  intros Hne. rewrite (pruneOverloadSet_run deref d [] cs Hne).
  unfold prunedChoices. split.
  - intros dr Hdr. apply representativeDecl_newest in Hdr. by rewrite Hdr.
  - intros Hnone. destruct (representativeDecl deref cs d) as [dr|] eqn:Hdr.
    + apply representativeDecl_newest in Hdr. by destruct (Hnone dr).
    + cbn. rewrite (left_id_L ∅ (∪)). by rewrite with_Disabled_id.
Qed.

(** ** [DisjunctionStep]: construction and destruction *)

Lemma unlink_elem_of_ne (c x : ConstraintPtr) (l : ConstraintList.t) :
  x ≠ c → x ∈ ConstraintList.unlink c l ↔ x ∈ l.
Proof.
  intros Hne. split; [apply unlink_elem_of|].
  induction l as [|y l IH]; simpl; [done|].
  case_decide; set_solver.
Qed.

(** What the constructor returns for a disjunction with choices. *)
Lemma DisjunctionStep_ctor_run (deref : ConstraintPtr → Constraint)
    (d : ConstraintPtr) (solutions : SolutionsRef) (cs : ConstraintSystem) :
  getKind (deref d) = Disjunction →
  getNestedConstraints (deref d) ≠ [] →
  DisjunctionStep_ctor deref d solutions cs =
  Returns
    (mkDisjunctionStep solutions d (prunedChoices deref cs d)
       (ConstraintList.next d (InactiveConstraints cs))
       (mkProducer (getNestedConstraints (deref d)) 0) None None None,
     mkCS (list_to_set (prunedChoices deref cs d) ∪ Disabled cs)
       (ConstraintList.unlink d (InactiveConstraints cs))
       (TypeVariables cs) (getRepresentative cs) (resolvedOverloadSets cs)
       (CurrentScore cs)
       (ConstraintGraph.removeConstraint d (getTypeVariables (deref d)) (CG cs))
       (incr_NumDisjunctions (solverState cs)) (retainAllSolutions cs)).
Proof.
  intros Hkind Hnested. unfold DisjunctionStep_ctor, erase.
  unfold mbind, Solver_bind, modify, gets, mret, Solver_ret, assert.
  cbn [ConstraintList.erase]. rewrite bool_decide_eq_true_2 by done.
  rewrite (pruneOverloadSet_run deref d [] _ Hnested). done.
Qed.



(** C4. Take a constraint that is linked into the constraint list.
    Constructing a [DisjunctionStep] for it fails an assertion when it is
    not a disjunction, and when it is a disjunction without nested
    choices. For a disjunction with at least one nested choice the
    constructor returns: the disjunction is unlinked from the constraint
    list (it is no longer in it, every other constraint is), the step
    remembers the position after it, and no choice has been produced or
    tried yet. *)
Theorem DisjunctionStep_ctor_contract (deref : ConstraintPtr → Constraint)
    (cs : ConstraintSystem) (d : ConstraintPtr) (solutions : SolutionsRef) :
  d ∈ InactiveConstraints cs →
  (getKind (deref d) ≠ Disjunction →
     DisjunctionStep_ctor deref d solutions cs = AssertionFailure) ∧
  (getNestedConstraints (deref d) = [] →
     DisjunctionStep_ctor deref d solutions cs = AssertionFailure) ∧
  (getKind (deref d) = Disjunction →
   getNestedConstraints (deref d) ≠ [] →
     ∃ step cs',
       DisjunctionStep_ctor deref d solutions cs = Returns (step, cs') ∧
       Disjunction_ step = d ∧
       AfterDisjunction step = ConstraintList.next d (InactiveConstraints cs) ∧
       InactiveConstraints cs' = ConstraintList.unlink d (InactiveConstraints cs) ∧
       (NoDup (InactiveConstraints cs) → d ∉ InactiveConstraints cs') ∧
       (∀ c, c ≠ d → c ∈ InactiveConstraints cs' ↔ c ∈ InactiveConstraints cs) ∧
       Producer_Index (Producer step) = 0 ∧
       LastSolvedChoice step = None ∧
       ActiveScope step = None).
Proof.
  intros _. split_and!.
  - intros Hkind. unfold DisjunctionStep_ctor, erase.
    unfold mbind, Solver_bind, modify, gets, mret, Solver_ret, assert.
    cbn [ConstraintList.erase]. by rewrite bool_decide_eq_false_2.
  - intros Hnested. unfold DisjunctionStep_ctor, erase, pruneOverloadSet.
    unfold mbind, Solver_bind, modify, gets, mret, Solver_ret, assert.
    cbn [ConstraintList.erase]. rewrite Hnested. by case_bool_decide.
  - intros Hkind Hnested. do 2 eexists.
    split; [by apply DisjunctionStep_ctor_run|]. cbn.
    split_and!; try done.
    + intros Hnd. by apply unlink_NoDup.
    + intros c Hc. by apply unlink_elem_of_ne.
Qed.

Lemma filter_all {A} (P : A → Prop) `{!∀ x, Decision (P x)} (l : list A) :
  Forall P l → filter P l = l.
Proof.
  induction 1 as [|x l Hx Hl IH]; [done|].
  by rewrite filter_cons_True, IH.
Qed.

(** * The properties at concrete inputs *)

Lemma erase_restore_round_trip_witness :
  ∃ cs',
    (it ← erase Example.heap 10; restore Example.heap it 10)
      (Example.system ∅ [] false) = Returns (tt, cs') ∧
    InactiveConstraints cs' = [20; 10; 30] ∧
    ConstraintGraph.Nodes (CG cs') = ConstraintGraph.Nodes Example.graph ∧
    ConstraintGraph.OrphanedConstraints (CG cs') ≡ₚ [30] ∧
    cs' = with_CG (ConstraintGraph.mk (ConstraintGraph.Nodes Example.graph)
                     (ConstraintGraph.OrphanedConstraints (CG cs')))
            (Example.system ∅ [] false) ∧
    (getTypeVariables (Example.heap 10) ≠ [] → cs' = Example.system ∅ [] false).
Proof.
  apply (erase_restore_round_trip Example.heap (Example.system ∅ [] false) 10).
  - cbn. repeat (constructor; [set_solver|]). constructor.
  - cbn. set_solver.
  - vm_compute. reflexivity.
Defined.

Lemma recordOrphan_second_aborts_witness :
  ∃ step',
    recordOrphan (Some 30) (mkComponentStep 0 1 [0; 0] None [] [] None)
                 (Example.system ∅ [] false)
      = Returns (step', Example.system ∅ [] false) ∧
    OrphanedConstraint step' = Some 30 ∧
    ∀ second cs', recordOrphan second step' cs' = AssertionFailure.
Proof.
  apply (recordOrphan_second_aborts (mkComponentStep 0 1 [0; 0] None [] [] None)).
  reflexivity.
Defined.


(** C2. A [DisjunctionStep] constructed and destroyed at once, none of
    its choices explored. Choice [12] of disjunction [10] is disabled
    before the step is constructed; the pruning disables it again and
    records it, and the destructor enables every recorded choice: the
    disjunction is back at its place in [20; 10; 30], but the flag of
    choice [12] is not the one it had before the construction. *)
Theorem DisjunctionStep_reenables_disabled_choice :
  ∃ cs',
    (step ← DisjunctionStep_ctor Example.heap 10 0; DisjunctionStep_dtor Example.heap step)
      (Example.system {[12]} Example.resolved100 false) = Returns (tt, cs') ∧
    InactiveConstraints cs' = [20; 10; 30] ∧
    12 ∈ getNestedConstraints (Example.heap 10) ∧
    isDisabled (Example.system {[12]} Example.resolved100 false) 12 = true ∧
    isDisabled cs' 12 = false.
Proof.
  eexists. split; [vm_compute; reflexivity|]. split_and!.
  - by vm_compute.
  - cbn. set_solver.
  - by vm_compute.
  - by vm_compute.
Qed.

Lemma DisjunctionStep_ctor_contract_witness :
  DisjunctionStep_ctor Example.heap 20 0 Example.system40 = AssertionFailure ∧
  DisjunctionStep_ctor Example.heap 40 0 Example.system40 = AssertionFailure ∧
  ∃ step cs',
    DisjunctionStep_ctor Example.heap 10 0 Example.system40 = Returns (step, cs') ∧
    Disjunction_ step = 10 ∧
    AfterDisjunction step = Some 30 ∧
    InactiveConstraints cs' = [20; 40; 30].
Proof.
  assert (20 ∈ InactiveConstraints Example.system40) as H20 by (cbn; set_solver).
  assert (40 ∈ InactiveConstraints Example.system40) as H40 by (cbn; set_solver).
  assert (10 ∈ InactiveConstraints Example.system40) as H10 by (cbn; set_solver).
  destruct (DisjunctionStep_ctor_contract Example.heap Example.system40 20 0 H20)
    as (Hkind & _ & _).
  destruct (DisjunctionStep_ctor_contract Example.heap Example.system40 40 0 H40)
    as (_ & Hnested & _).
  destruct (DisjunctionStep_ctor_contract Example.heap Example.system40 10 0 H10)
    as (_ & _ & Hok).
  split_and!.
  - apply Hkind. cbn. discriminate.
  - apply Hnested. reflexivity.
  - destruct Hok as (step & cs' & Hrun & Hd & Hafter & Hl & _);
      [reflexivity | cbn; discriminate |].
    exists step, cs'. split_and!; done.
Defined.

(** The newest resolved overload bound to type variable [3] is not a
    declaration, an older one is declaration [100]: choices [12] and [13]
    are other declarations, and nothing is disabled. *)
Lemma pruneOverloadSet_some_resolved_counterexample :
  someResolvedDecl Example.heap (Example.system ∅ Example.resolvedTwice false) 10 100 ∧
  otherDecls Example.heap 100 10 = [12; 13] ∧
  pruneOverloadSet Example.heap 10 [] (Example.system ∅ Example.resolvedTwice false)
    = Returns ([], Example.system ∅ Example.resolvedTwice false).
Proof.
  split_and!; [|reflexivity..].
  exists 11, [12; 13], 1, 3, (mkResolved (TypeVariable 3) (ChoiceDecl 100)).
  split_and!; try done.
  unfold Example.system, Example.resolvedTwice. cbn. set_solver.
Qed.

Lemma pruneOverloadSet_disables_witness :
  (∀ dr, newestResolvedDecl Example.heap (Example.system ∅ Example.resolved100 false) 10 dr →
     pruneOverloadSet Example.heap 10 [] (Example.system ∅ Example.resolved100 false) =
     Returns (otherDecls Example.heap dr 10,
              with_Disabled (list_to_set (otherDecls Example.heap dr 10) ∪ ∅)
                            (Example.system ∅ Example.resolved100 false))) ∧
  ((∀ dr, ¬ newestResolvedDecl Example.heap
              (Example.system ∅ Example.resolved100 false) 10 dr) →
     pruneOverloadSet Example.heap 10 [] (Example.system ∅ Example.resolved100 false)
       = Returns ([], Example.system ∅ Example.resolved100 false)).
Proof.
  apply (pruneOverloadSet_disables Example.heap
           (Example.system ∅ Example.resolved100 false) 10).
  cbn. discriminate.
Defined.

(** The pruning of the example, run: [12] and [13] are disabled. *)
Example pruneOverloadSet_example :
  ∃ cs',
    pruneOverloadSet Example.heap 10 [] (Example.system ∅ Example.resolved100 false)
      = Returns ([12; 13], cs') ∧
    isDisabled cs' 11 = false ∧ isDisabled cs' 12 = true ∧ isDisabled cs' 13 = true.
Proof.
  eexists. split; [vm_compute; reflexivity|]. by vm_compute.
Qed.

(** * Further properties of the steps *)

(** ** [erase] and [restore], by position *)

Lemma next_app (c : ConstraintPtr) (l1 l2 : ConstraintList.t) :
  c ∉ l1 → ConstraintList.next c (l1 ++ c :: l2) = head l2.
Proof.
  induction l1 as [|x l1 IH]; intros Hc; simpl.
  - by case_decide.
  - case_decide; [set_solver|]. apply IH. set_solver.
Qed.

Lemma unlink_app (c : ConstraintPtr) (l1 l2 : ConstraintList.t) :
  c ∉ l1 → ConstraintList.unlink c (l1 ++ c :: l2) = l1 ++ l2.
Proof.
  induction l1 as [|x l1 IH]; intros Hc; simpl.
  - by case_decide.
  - case_decide; [set_solver|]. f_equal. apply IH. set_solver.
Qed.


(** X1. [erase] takes the constraint out of the list where it stands: the
    constraints in front of it and behind it keep their order, and the
    iterator returned designates the constraint that stood behind it, the
    end of the list when it was the last one. Flags, type variables and
    score are not touched. *)
Theorem erase_unlinks (deref : ConstraintPtr → Constraint) (cs : ConstraintSystem)
    (c : ConstraintPtr) (l1 l2 : ConstraintList.t) :
  InactiveConstraints cs = l1 ++ c :: l2 →
  c ∉ l1 →
  ∃ cs',
    erase deref c cs = Returns (head l2, cs') ∧
    InactiveConstraints cs' = l1 ++ l2 ∧
    Disabled cs' = Disabled cs ∧
    TypeVariables cs' = TypeVariables cs ∧
    CurrentScore cs' = CurrentScore cs.
Proof.
  intros Hl Hc. unfold erase. run. rewrite Hl.
  rewrite (next_app c l1 l2 Hc), (unlink_app c l1 l2 Hc).
  eexists. split; [reflexivity|]. done.
Qed.



(** X4. Stack discipline: two different constraints erased one after the
    other and restored in the reverse order, each with the iterator its
    own [erase] returned, leave the constraint list, in its order, and the
    flags as they were. *)
Theorem erase_restore_nested (deref : ConstraintPtr → Constraint)
    (cs : ConstraintSystem) (c1 c2 : ConstraintPtr) :
  NoDup (InactiveConstraints cs) →
  c1 ∈ InactiveConstraints cs →
  c2 ∈ InactiveConstraints cs →
  c1 ≠ c2 →
  ∃ cs',
    (it1 ← erase deref c1; it2 ← erase deref c2;
     restore deref it2 c2;; restore deref it1 c1) cs = Returns (tt, cs') ∧
    InactiveConstraints cs' = InactiveConstraints cs ∧
    Disabled cs' = Disabled cs ∧
    TypeVariables cs' = TypeVariables cs.
Proof.
  intros Hnd H1 H2 Hne. unfold erase, restore. run.
  eexists. split; [reflexivity|]. cbn.
  destruct (unlink_NoDup c1 _ Hnd) as [Hnd1 _].
  assert (c2 ∈ ConstraintList.unlink c1 (InactiveConstraints cs)) as H2'
    by (apply unlink_elem_of_ne; done).
  rewrite (insert_erase c2 _ Hnd1 H2'), (insert_erase c1 _ Hnd H1). done.
Qed.

Lemma erase_unlinks_witness :
  ∃ cs',
    erase Example.heap 10 (Example.system ∅ [] false) = Returns (head [30], cs') ∧
    InactiveConstraints cs' = [20] ++ [30] ∧
    Disabled cs' = Disabled (Example.system ∅ [] false) ∧
    TypeVariables cs' = TypeVariables (Example.system ∅ [] false) ∧
    CurrentScore cs' = CurrentScore (Example.system ∅ [] false).
Proof.
  refine (erase_unlinks Example.heap (Example.system ∅ [] false) 10 [20] [30] _ _).
  - reflexivity.
  - set_solver.
Defined.



Lemma erase_restore_nested_witness :
  ∃ cs',
    (it1 ← erase Example.heap 20; it2 ← erase Example.heap 10;
     restore Example.heap it2 10;; restore Example.heap it1 20)
      (Example.system ∅ [] false) = Returns (tt, cs') ∧
    InactiveConstraints cs' = InactiveConstraints (Example.system ∅ [] false) ∧
    Disabled cs' = Disabled (Example.system ∅ [] false) ∧
    TypeVariables cs' = TypeVariables (Example.system ∅ [] false).
Proof.
  refine (erase_restore_nested Example.heap (Example.system ∅ [] false) 20 10 _ _ _ _).
  - cbn. repeat (constructor; [set_solver|]). constructor.
  - cbn. set_solver.
  - cbn. set_solver.
  - discriminate.
Defined.

(** ** [pruneOverloadSet]: what it touches and what it spares *)

Lemma elem_of_otherDecls (deref : ConstraintPtr → Constraint) (dr : ValueDecl)
    (d c : ConstraintPtr) :
  c ∈ otherDecls deref dr d ↔
  (∃ d', getOverloadChoice (deref c) = ChoiceDecl d' ∧ d' ≠ dr) ∧
  c ∈ getNestedConstraints (deref d).
Proof.
  unfold otherDecls. rewrite list_elem_of_filter.
  destruct (getOverloadChoice (deref c)) as [d'|]; cbn.
  - rewrite bool_decide_spec. naive_solver.
  - naive_solver.
Qed.

(** X5. [pruneOverloadSet] fails its assertion exactly when the
    disjunction has no nested constraint; in every other case it
    returns. *)
Theorem pruneOverloadSet_fails_iff (deref : ConstraintPtr → Constraint)
    (cs : ConstraintSystem) (d : ConstraintPtr) (acc : list ConstraintPtr) :
  pruneOverloadSet deref d acc cs = AssertionFailure ↔
  getNestedConstraints (deref d) = [].
Proof.
  split.
  - intros Hfail. destruct (getNestedConstraints (deref d)) as [|c l] eqn:Hn; [done|].
    rewrite pruneOverloadSet_run in Hfail by (by rewrite Hn). done.
  - intros Hn. unfold pruneOverloadSet. by rewrite Hn.
Qed.

(** X6. On a disjunction with a nested constraint [pruneOverloadSet]
    only ever disables: it appends to [DisabledChoices] some of the
    nested constraints, in their order and each a declaration choice,
    sets the flag of exactly those, clears no flag, and changes nothing
    else in the constraint system. *)
Theorem pruneOverloadSet_only_disables (deref : ConstraintPtr → Constraint)
    (cs : ConstraintSystem) (d : ConstraintPtr) (acc : list ConstraintPtr) :
  getNestedConstraints (deref d) ≠ [] →
  ∃ new cs',
    pruneOverloadSet deref d acc cs = Returns (acc ++ new, cs') ∧
    sublist new (getNestedConstraints (deref d)) ∧
    Forall (λ c, isDecl (getOverloadChoice (deref c)) = true) new ∧
    Disabled cs' = list_to_set new ∪ Disabled cs ∧
    Disabled cs ⊆ Disabled cs' ∧
    cs' = with_Disabled (Disabled cs') cs.
Proof.
  intros Hn. do 2 eexists. split; [by apply pruneOverloadSet_run|].
  cbn. split_and!; try done; [| |set_solver].
  - unfold prunedChoices.
    destruct (representativeDecl deref cs d); [apply sublist_filter | apply sublist_nil_l].
  - apply Forall_forall. intros c Hc. unfold prunedChoices in Hc.
    destruct (representativeDecl deref cs d) as [dr|]; [|by apply elem_of_nil in Hc].
    apply elem_of_otherDecls in Hc as [(d' & -> & _) _]. done.
Qed.

(** X7. What the pruning spares: a constraint that is not a nested
    choice of the disjunction, a nested choice that is not a declaration,
    and the nested choice for the very declaration the representative was
    resolved to keep their flag and are not added to [DisabledChoices]. *)
Theorem pruneOverloadSet_spares (deref : ConstraintPtr → Constraint)
    (cs : ConstraintSystem) (d : ConstraintPtr) (acc : list ConstraintPtr) :
  getNestedConstraints (deref d) ≠ [] →
  ∃ disabledChoices cs',
    pruneOverloadSet deref d acc cs = Returns (disabledChoices, cs') ∧
    ∀ c,
      c ∉ getNestedConstraints (deref d) ∨
      getOverloadChoice (deref c) = ChoiceOther ∨
      (∃ dr, newestResolvedDecl deref cs d dr ∧
             getOverloadChoice (deref c) = ChoiceDecl dr) →
      isDisabled cs' c = isDisabled cs c ∧
      (c ∈ disabledChoices → c ∈ acc).
Proof.
  intros Hn. do 2 eexists. split; [by apply pruneOverloadSet_run|].
  intros c Hc.
  assert (c ∉ prunedChoices deref cs d) as Hspared.
  { unfold prunedChoices.
    destruct (representativeDecl deref cs d) as [dr0|] eqn:Hdr0;
      [|by intros ?%elem_of_nil].
    intros [(d' & Hd' & Hne) Hin]%elem_of_otherDecls.
    destruct Hc as [Hc|[Hc|(dr & Hdr & Hc)]]; [done|congruence|].
    apply representativeDecl_newest in Hdr. congruence. }
  unfold isDisabled. cbn. split.
  - apply bool_decide_ext. set_solver.
  - set_solver.
Qed.

(** X8. The pruning can leave the disjunction without an enabled choice:
    when every nested choice is a declaration other than the one the
    representative was resolved to, all nested choices are disabled and
    [DisabledChoices] is the whole list of them. *)
Theorem pruneOverloadSet_disables_all (deref : ConstraintPtr → Constraint)
    (cs : ConstraintSystem) (d : ConstraintPtr) (dr : ValueDecl) :
  newestResolvedDecl deref cs d dr →
  Forall (λ c, ∃ d', getOverloadChoice (deref c) = ChoiceDecl d' ∧ d' ≠ dr)
         (getNestedConstraints (deref d)) →
  ∃ cs',
    pruneOverloadSet deref d [] cs = Returns (getNestedConstraints (deref d), cs') ∧
    ∀ c, c ∈ getNestedConstraints (deref d) → isDisabled cs' c = true.
Proof.
  intros Hdr Hall.
  assert (getNestedConstraints (deref d) ≠ []) as Hn.
  { destruct Hdr as (choice & rest & ? & ? & ? & ? & ? & -> & _). done. }
  apply representativeDecl_newest in Hdr.
  assert (prunedChoices deref cs d = getNestedConstraints (deref d)) as Hpruned.
  { unfold prunedChoices. rewrite Hdr. unfold otherDecls. apply filter_all.
    eapply Forall_impl; [exact Hall|]. cbn. intros c (d' & -> & Hne).
    cbn. by apply bool_decide_pack. }
  eexists. split.
  - rewrite (pruneOverloadSet_run deref d [] cs Hn), Hpruned. reflexivity.
  - intros c Hc. unfold isDisabled. cbn. apply bool_decide_eq_true. set_solver.
Qed.

Lemma pruneOverloadSet_only_disables_witness :
  ∃ new cs',
    pruneOverloadSet Example.heap 10 [11] (Example.system {[12]} Example.resolved100 false)
      = Returns ([11] ++ new, cs') ∧
    sublist new (getNestedConstraints (Example.heap 10)) ∧
    Forall (λ c, isDecl (getOverloadChoice (Example.heap c)) = true) new ∧
    Disabled cs' = list_to_set new ∪ Disabled (Example.system {[12]} Example.resolved100 false) ∧
    Disabled (Example.system {[12]} Example.resolved100 false) ⊆ Disabled cs' ∧
    cs' = with_Disabled (Disabled cs') (Example.system {[12]} Example.resolved100 false).
Proof.
  refine (pruneOverloadSet_only_disables Example.heap
            (Example.system {[12]} Example.resolved100 false) 10 [11] _).
  cbn. discriminate.
Defined.

Lemma pruneOverloadSet_spares_witness :
  ∃ disabledChoices cs',
    pruneOverloadSet Example.heap 10 [] (Example.system ∅ Example.resolved100 false)
      = Returns (disabledChoices, cs') ∧
    ∀ c,
      c ∉ getNestedConstraints (Example.heap 10) ∨
      getOverloadChoice (Example.heap c) = ChoiceOther ∨
      (∃ dr, newestResolvedDecl Example.heap
               (Example.system ∅ Example.resolved100 false) 10 dr ∧
             getOverloadChoice (Example.heap c) = ChoiceDecl dr) →
      isDisabled cs' c = isDisabled (Example.system ∅ Example.resolved100 false) c ∧
      (c ∈ disabledChoices → c ∈ []).
Proof.
  refine (pruneOverloadSet_spares Example.heap
            (Example.system ∅ Example.resolved100 false) 10 [] _).
  cbn. discriminate.
Defined.

Lemma pruneOverloadSet_disables_all_witness :
  ∃ cs',
    pruneOverloadSet Example.heap 10 []
      (Example.system ∅ [mkResolved (TypeVariable 3) (ChoiceDecl 999)] false)
      = Returns (getNestedConstraints (Example.heap 10), cs') ∧
    ∀ c, c ∈ getNestedConstraints (Example.heap 10) → isDisabled cs' c = true.
Proof.
  refine (pruneOverloadSet_disables_all Example.heap
            (Example.system ∅ [mkResolved (TypeVariable 3) (ChoiceDecl 999)] false)
            10 999 _ _).
  - exists 11, [12; 13], 1, 3, [], (mkResolved (TypeVariable 3) (ChoiceDecl 999)), [].
    split_and!; done.
  - cbn. repeat (constructor; [eexists; split; [reflexivity | discriminate]|]).
    constructor.
Defined.

(** ** [DisjunctionStep]: the destructor and the counter *)




(** ** [ComponentStep]: destructor, [record] and [recordOrphan] *)



Lemma foldl_record_TypeVar (typeVars : list TypeVariableType) (step : ComponentStep) :
  foldl (λ st tv, record_TypeVar tv st) step typeVars =
  mkComponentStep (Component_Solutions step) (Index step) (OriginalScore step)
                  (Scope step) (TypeVars step ++ typeVars) (Constraints step)
                  (OrphanedConstraint step).
Proof.
  revert step. induction typeVars as [|tv typeVars IH]; intros step.
  - cbn. rewrite app_nil_r. by destruct step.
  - cbn [foldl]. rewrite IH. cbn. by rewrite <- (assoc_L (++)).
Qed.

Lemma foldl_record_Constraint (constraints : list ConstraintPtr) (step : ComponentStep) :
  foldl (λ st c, record_Constraint c st) step constraints =
  mkComponentStep (Component_Solutions step) (Index step) (OriginalScore step)
                  (Scope step) (TypeVars step) (Constraints step ++ constraints)
                  (OrphanedConstraint step).
Proof.
  revert step. induction constraints as [|c constraints IH]; intros step.
  - cbn. rewrite app_nil_r. by destruct step.
  - cbn [foldl]. rewrite IH. cbn. by rewrite <- (assoc_L (++)).
Qed.

(** X13. The two [record] operations keep call order and do not
    interfere: recording type variables and then constraints gives the
    same step as recording the constraints first; its vectors are the old
    ones followed by what was recorded, in the order of the calls, and
    index, score, scope and orphan are untouched. *)
Theorem record_in_order (step : ComponentStep) (typeVars : list TypeVariableType)
    (constraints : list ConstraintPtr) :
  let recorded :=
    foldl (λ st c, record_Constraint c st)
          (foldl (λ st tv, record_TypeVar tv st) step typeVars) constraints in
  recorded = foldl (λ st tv, record_TypeVar tv st)
                   (foldl (λ st c, record_Constraint c st) step constraints) typeVars ∧
  TypeVars recorded = TypeVars step ++ typeVars ∧
  Constraints recorded = Constraints step ++ constraints ∧
  Index recorded = Index step ∧
  OriginalScore recorded = OriginalScore step ∧
  Scope recorded = Scope step ∧
  OrphanedConstraint recorded = OrphanedConstraint step.
Proof.
  cbv zeta.
  rewrite !foldl_record_TypeVar, !foldl_record_Constraint. done.
Qed.

(** X14. [recordOrphan] changes the [OrphanedConstraint] member only,
    never the constraint system or the recorded vectors, and its
    assertion looks at the pointer alone: recording a null pointer on a
    step without an orphan leaves the step free to record an orphan
    afterwards. *)
Theorem recordOrphan_null_then_orphan (step : ComponentStep) (cs : ConstraintSystem)
    (c : ConstraintPtr) :
  OrphanedConstraint step = None →
  ∃ step' step'',
    recordOrphan None step cs = Returns (step', cs) ∧
    recordOrphan (Some c) step' cs = Returns (step'', cs) ∧
    OrphanedConstraint step'' = Some c ∧
    TypeVars step'' = TypeVars step ∧
    Constraints step'' = Constraints step ∧
    Scope step'' = Scope step.
Proof.
  intros Hnull. do 2 eexists. unfold recordOrphan. run. rewrite Hnull. cbn.
  by split_and!.
Qed.


Lemma recordOrphan_null_then_orphan_witness :
  ∃ step' step'',
    recordOrphan None (mkComponentStep 0 1 [0; 0] None [1] [20] None)
                 (Example.system ∅ [] false)
      = Returns (step', Example.system ∅ [] false) ∧
    recordOrphan (Some 30) step' (Example.system ∅ [] false)
      = Returns (step'', Example.system ∅ [] false) ∧
    OrphanedConstraint step'' = Some 30 ∧
    TypeVars step'' = [1] ∧
    Constraints step'' = [20] ∧
    Scope step'' = None.
Proof.
  refine (recordOrphan_null_then_orphan
            (mkComponentStep 0 1 [0; 0] None [1] [20] None)
            (Example.system ∅ [] false) 30 _).
  reflexivity.
Defined.
